(** * examples/cpptest/main.cpp: a counter component wired to three signals

    The program creates one [Hello] component, attaches a C++ lambda to each
    of its three signals and enters the framework's event loop.  This file
    embeds the program as state-passing code over a store of component
    objects, the standard output and a trace of the framework calls, and
    proves the properties of the handlers and of [main]. *)

From Stdlib Require Import ZArith String Ascii List Lia.
From stdpp Require Import base option list.
Import ListNotations.

(** ** The C++ [int]

    [counter.get(nullptr) + 1] is an addition on the value type of the
    property, a signed machine integer.  Its width [w] is fixed by the
    generated header and by the platform, so it is an argument here.  Values
    are kept as [Z] in the signed range, and the arithmetic is the two's
    complement one of the machine instruction: a result outside the range is
    reduced modulo [2 ^ w] (the C++ standard leaves that case undefined). *)
Module Int.
Local Open Scope Z_scope.

Definition modulus (w : Z) : Z := 2 ^ w.
Definition min_value (w : Z) : Z := - 2 ^ (w - 1).
Definition max_value (w : Z) : Z := 2 ^ (w - 1) - 1.

Definition representable (w z : Z) : Prop := min_value w <= z <= max_value w.

Definition representableb (w z : Z) : bool :=
  (min_value w <=? z) && (z <=? max_value w).

Definition wrap (w z : Z) : Z := (z - min_value w) mod modulus w + min_value w.

Definition add (w a b : Z) : Z := wrap w (a + b).
Definition sub (w a b : Z) : Z := wrap w (a - b).

End Int.

(** ** The framework's property and signal classes *)

Module Property.

(** Modelled from the spec: the framework's [Property<T>] class, which is not
    part of the example's sources.  The spec gives the counter "get/set
    semantics" and calls the read a plain getter: the null argument of [get]
    carries no meaning.  [context] is that argument, [None] for [nullptr]. *)
Record t : Type := make { value : Z }.

(** Modelled from the spec: [Property<T>::get], a plain getter. *)
Definition get (p : t) (context : option unit) : Z := value p.

(** Modelled from the spec: [Property<T>::set], which replaces the value. *)
Definition set (p : t) (v : Z) : t := make v.

End Property.

Module Signal.
Section Slot.
Context {H : Type}.

(** Modelled from the spec: the framework's [Signal] class, which is not part
    of the example's sources.  A signal has one slot; [set_handler]
    "overwrites any previously set handler for that signal (single-slot
    semantics, not multi-subscriber)", and a firing invokes the handler that
    is attached.  [emit] gives the handler to invoke, [None] on an empty
    slot. *)
Record t : Type := make { handler : option H }.

(** Modelled from the spec: a signal nobody has attached a handler to. *)
Definition empty : t := make None.

(** Modelled from the spec: [Signal::set_handler], which overwrites the
    slot. *)
Definition set_handler (s : t) (h : H) : t := make (Some h).

(** Modelled from the spec: [Signal::emit], a firing of the signal. *)
Definition emit (s : t) : option H := handler s.

(** The calls a client makes on one signal over time, and the handlers that
    fire in the course of them, oldest first. *)
Inductive call : Type :=
| Set_handler (h : H)
| Emit.

Fixpoint fired (s : t) (calls : list call) : list H :=
  match calls with
  | [] => []
  | Set_handler h :: rest => fired (set_handler s h) rest
  | Emit :: rest =>
      match emit s with
      | Some h => h :: fired s rest
      | None => fired s rest
      end
  end.

Definition registers (h : H) (c : call) : Prop :=
  match c with
  | Set_handler h' => h' = h
  | Emit => False
  end.

End Slot.
Global Arguments t : clear implicits.
Global Arguments call : clear implicits.
End Signal.

(** ** The component and the program state *)

(** Objects live in a store and are named by their position in it. *)
Definition addr : Type := nat.

Definition nullptr : option unit := None.

Inductive SignalName : Type :=
| Foobar
| Plus_clicked
| Minus_clicked.

(** The three lambdas of [main], in source order.  None of them captures
    anything (the capture lists are empty): the two counter handlers name the
    static [component] in their bodies, which is the address they carry
    here; the first one names no object at all. *)
Inductive Lambda : Type :=
| lambda_foobar
| lambda_plus_clicked (component : addr)
| lambda_minus_clicked (component : addr).

(** Modelled from the spec: the generated header hello.h, which is not part
    of the example's sources.  The component exposes "a mutable integer
    property `counter`" and "three signal slots: `foobar`, `plus_clicked`,
    `minus_clicked`, each accepting one handler". *)
Record Hello : Type := make_Hello {
  counter : Property.t;
  foobar : Signal.t Lambda;
  plus_clicked : Signal.t Lambda;
  minus_clicked : Signal.t Lambda
}.

Definition signal (s : SignalName) (o : Hello) : Signal.t Lambda :=
  match s with
  | Foobar => foobar o
  | Plus_clicked => plus_clicked o
  | Minus_clicked => minus_clicked o
  end.

Definition with_signal (s : SignalName) (o : Hello) (x : Signal.t Lambda) : Hello :=
  match s with
  | Foobar => make_Hello (counter o) x (plus_clicked o) (minus_clicked o)
  | Plus_clicked => make_Hello (counter o) (foobar o) x (minus_clicked o)
  | Minus_clicked => make_Hello (counter o) (foobar o) (plus_clicked o) x
  end.

Definition with_counter (o : Hello) (p : Property.t) : Hello :=
  make_Hello p (foobar o) (plus_clicked o) (minus_clicked o).

(** What the program does to the framework and to its objects, in order. *)
Inductive Event : Type :=
| Constructed (a : addr)
| Handler_set (a : addr) (s : SignalName) (h : Lambda)
| Run_entered (a : addr)
| Emitted (a : addr) (s : SignalName)
| Called (h : Lambda)
| Counter_read (a : addr) (v : Z)
| Counter_written (a : addr) (v : Z)
| Run_left (a : addr).

Record World : Type := make_World {
  objects : list Hello;
  cout : string;
  events : list Event
}.

(** The state at process start: no object constructed, nothing printed. *)
Definition boot : World := make_World [] EmptyString [].

(** ** State and failure

    A computation threads the [World] and fails ([None]) when it touches an
    address that holds no object. *)
Definition M (A : Type) : Type := World -> option (A * World).

Global Instance M_ret : MRet M := fun A x W => Some (x, W).

Global Instance M_bind : MBind M := fun A B k m W =>
  match m W with
  | Some (x, W') => k x W'
  | None => None
  end.

Definition log (e : Event) : M unit := fun W =>
  Some (tt, make_World (objects W) (cout W) (events W ++ [e])).

Definition load (a : addr) : M Hello := fun W =>
  match objects W !! a with
  | Some o => Some (o, W)
  | None => None
  end.

Definition store (a : addr) (o : Hello) : M unit := fun W =>
  match objects W !! a with
  | Some _ => Some (tt, make_World (<[a:=o]> (objects W)) (cout W) (events W))
  | None => None
  end.

Definition write_cout (s : string) : M unit := fun W =>
  Some (tt, make_World (objects W) (cout W ++ s)%string (events W)).

Definition newline : ascii := "010"%char.

(** [std::endl]: a newline character (and a flush, which leaves no mark). *)
Definition endl : string := String newline EmptyString.

(** [static Hello component;] - the object is constructed when control first
    passes its declaration.  [counter_init] is the value the generated
    constructor gives the counter. *)
Definition construct_Hello (counter_init : Z) : M addr := fun W =>
  let a := length (objects W) in
  let o := make_Hello (Property.make counter_init) Signal.empty Signal.empty Signal.empty in
  Some (a, make_World (objects W ++ [o]) (cout W) (events W ++ [Constructed a])).

(** [component.s.set_handler(h)] *)
Definition set_handler (a : addr) (s : SignalName) (h : Lambda) : M unit :=
  o ← load a;
  store a (with_signal s o (Signal.set_handler (signal s o) h));;
  log (Handler_set a s h).

(** [component.counter.get(context)] *)
Definition counter_get (a : addr) (context : option unit) : M Z :=
  o ← load a;
  let v := Property.get (counter o) context in
  log (Counter_read a v);;
  mret v.

(** [component.counter.set(v)] *)
Definition counter_set (a : addr) (v : Z) : M unit :=
  o ← load a;
  store a (with_counter o (Property.set (counter o) v));;
  log (Counter_written a v).

(** ** main.cpp *)

(** Modelled from the spec: the input of [sixtyfps::run], which is not part
    of the example's sources.  The loop delivers the signals the user fires
    until it terminates (the window is closed); [loop_status] is whatever the
    loop produces when it does. *)
Record Session : Type := make_Session {
  firings : list SignalName;
  loop_status : Z
}.

Section Program.

(** The width of [int] and the initial value of the counter, both fixed by
    the generated header. *)
Variable w : Z.
Variable counter_init : Z.

(** [[](auto...){ std::cout << "Hello from C++" << std::endl; }] *)
Definition foobar_handler : M unit :=
  write_cout "Hello from C++";;
  write_cout endl.

(** [[](auto...){ auto &counter = component.counter;
                  counter.set(counter.get(nullptr) + 1); }] *)
Definition plus_clicked_handler (component : addr) : M unit :=
  let counter := component in
  v ← counter_get counter nullptr;
  counter_set counter (Int.add w v 1).

(** [[](auto...){ auto &counter = component.counter;
                  counter.set(counter.get(nullptr) - 1); }] *)
Definition minus_clicked_handler (component : addr) : M unit :=
  let counter := component in
  v ← counter_get counter nullptr;
  counter_set counter (Int.sub w v 1).

Definition call (h : Lambda) : M unit :=
  log (Called h);;
  match h with
  | lambda_foobar => foobar_handler
  | lambda_plus_clicked component => plus_clicked_handler component
  | lambda_minus_clicked component => minus_clicked_handler component
  end.

(** A firing of signal [s] of the object at [a]: the attached handler runs,
    synchronously; an empty slot does nothing. *)
Definition emit (a : addr) (s : SignalName) : M unit :=
  o ← load a;
  log (Emitted a s);;
  match Signal.emit (signal s o) with
  | Some h => call h
  | None => mret tt
  end.

Fixpoint deliver (a : addr) (fired : list SignalName) : M unit :=
  match fired with
  | [] => mret tt
  | s :: rest => emit a s;; deliver a rest
  end.

(** Modelled from the spec: [sixtyfps::run], which is not part of the
    example's sources.  It "transfers control to the UI framework's event
    loop, blocking the calling thread until the loop terminates"; "all
    subsequent signal firings invoke the attached handlers synchronously on
    the loop's thread". *)
Definition run (env : Session) (a : addr) : M Z :=
  log (Run_entered a);;
  deliver a (firings env);;
  log (Run_left a);;
  mret (loop_status env).

(** Lines 5 to 19 of [main]: the object and its three handlers. *)
Definition wire : M addr :=
  component ← construct_Hello counter_init;
  set_handler component Foobar lambda_foobar;;
  set_handler component Plus_clicked (lambda_plus_clicked component);;
  set_handler component Minus_clicked (lambda_minus_clicked component);;
  mret component.

(** [int main()].  The value of the call to [run] is dropped and control runs
    off the end of the function, which for [main] is [return 0]. *)
Definition main (env : Session) : M Z :=
  component ← construct_Hello counter_init;
  set_handler component Foobar lambda_foobar;;
  set_handler component Plus_clicked (lambda_plus_clicked component);;
  set_handler component Minus_clicked (lambda_minus_clicked component);;
  run env component;;
  mret 0%Z.

End Program.

(** ** Observations used in the statements *)

(** The value of the counter of the object at [a]. *)
Definition counter_at (W : World) (a : addr) : option Z :=
  match objects W !! a with
  | Some o => Some (Property.get (counter o) nullptr)
  | None => None
  end.

(** The number of complete lines in an output. *)
Fixpoint lines (s : string) : nat :=
  match s with
  | EmptyString => 0
  | String c rest => (if Ascii.eqb c newline then 1 else 0) + lines rest
  end.

(** The object a lambda refers to, if any. *)
Definition names (h : Lambda) : option addr :=
  match h with
  | lambda_foobar => None
  | lambda_plus_clicked component => Some component
  | lambda_minus_clicked component => Some component
  end.

(** Events of a handler invocation, as opposed to those of [main] itself. *)
Definition in_loop (e : Event) : Prop :=
  match e with
  | Emitted _ _ | Called _ | Counter_read _ _ | Counter_written _ _ => True
  | Constructed _ | Handler_set _ _ _ | Run_entered _ | Run_left _ => False
  end.

(** An event that is a counter access is an access to the object at [a]. *)
Definition targets (a : addr) (e : Event) : Prop :=
  match e with
  | Counter_read a' _ | Counter_written a' _ => a' = a
  | _ => True
  end.

(** The object at [a] has the three lambdas of [main] attached, the counter
    handlers referring to [a] itself. *)
Definition wired (a : addr) (o : Hello) : Prop :=
  foobar o = Signal.make (Some lambda_foobar) /\
  plus_clicked o = Signal.make (Some (lambda_plus_clicked a)) /\
  minus_clicked o = Signal.make (Some (lambda_minus_clicked a)).

(** A world holding one wired component whose counter is [c]. *)
Definition wired_world (c : Z) (out : string) (tr : list Event) : World :=
  make_World
    [make_Hello (Property.make c)
       (Signal.make (Some lambda_foobar))
       (Signal.make (Some (lambda_plus_clicked 0)))
       (Signal.make (Some (lambda_minus_clicked 0)))]
    out tr.

(** ** A run in closed form

    What one firing, and a sequence of firings, does to a component wired as
    [main] wires it: to its counter, to the output and to the trace.  These
    functions are what the loop lemmas below compare [emit] and [deliver]
    with. *)
Definition counter_step (w : Z) (s : SignalName) (c : Z) : Z :=
  match s with
  | Foobar => c
  | Plus_clicked => Int.add w c 1
  | Minus_clicked => Int.sub w c 1
  end.

Definition output_step (s : SignalName) : string :=
  match s with
  | Foobar => "Hello from C++" ++ endl
  | Plus_clicked | Minus_clicked => ""
  end.

Definition events_step (w : Z) (a : addr) (s : SignalName) (c : Z) : list Event :=
  match s with
  | Foobar => [Emitted a Foobar; Called lambda_foobar]
  | Plus_clicked =>
      [Emitted a Plus_clicked; Called (lambda_plus_clicked a);
       Counter_read a c; Counter_written a (Int.add w c 1)]
  | Minus_clicked =>
      [Emitted a Minus_clicked; Called (lambda_minus_clicked a);
       Counter_read a c; Counter_written a (Int.sub w c 1)]
  end.

Fixpoint counter_after (w : Z) (fired : list SignalName) (c : Z) : Z :=
  match fired with
  | [] => c
  | s :: rest => counter_after w rest (counter_step w s c)
  end.

Fixpoint output_after (fired : list SignalName) : string :=
  match fired with
  | [] => ""
  | s :: rest => output_step s ++ output_after rest
  end.

Fixpoint events_after (w : Z) (a : addr) (fired : list SignalName) (c : Z) : list Event :=
  match fired with
  | [] => []
  | s :: rest => events_step w a s c ++ events_after w a rest (counter_step w s c)
  end.

(** The trace of lines 5 to 19. *)
Definition wiring_events : list Event :=
  [Constructed 0;
   Handler_set 0 Foobar lambda_foobar;
   Handler_set 0 Plus_clicked (lambda_plus_clicked 0);
   Handler_set 0 Minus_clicked (lambda_minus_clicked 0)].

(** The number of objects a trace constructs. *)
Fixpoint constructions (tr : list Event) : nat :=
  match tr with
  | [] => 0
  | Constructed _ :: rest => S (constructions rest)
  | _ :: rest => constructions rest
  end.

(** ** Counting over a session

    How often a signal fires in a session, what the firings add up to for
    the counter, which lambda [main] attaches to which signal, and what a
    trace says about the handlers called and the counter values read. *)
Definition SignalName_eqb (s t : SignalName) : bool :=
  match s, t with
  | Foobar, Foobar | Plus_clicked, Plus_clicked | Minus_clicked, Minus_clicked => true
  | _, _ => false
  end.

Fixpoint times (s : SignalName) (fired : list SignalName) : nat :=
  match fired with
  | [] => 0
  | t :: rest => (if SignalName_eqb s t then 1 else 0) + times s rest
  end.

Definition net (fired : list SignalName) : Z :=
  (Z.of_nat (times Plus_clicked fired) - Z.of_nat (times Minus_clicked fired))%Z.

(** The lambda that lines 7 to 19 attach to signal [s] of the object at [a]. *)
Definition registered (a : addr) (s : SignalName) : Lambda :=
  match s with
  | Foobar => lambda_foobar
  | Plus_clicked => lambda_plus_clicked a
  | Minus_clicked => lambda_minus_clicked a
  end.

Fixpoint called (tr : list Event) : list Lambda :=
  match tr with
  | [] => []
  | Called h :: rest => h :: called rest
  | _ :: rest => called rest
  end.

Fixpoint greetings (n : nat) : string :=
  match n with
  | 0 => ""
  | S n' => "Hello from C++" ++ endl ++ greetings n'
  end.


(** * Properties *)

(** ** Machine arithmetic *)

Module IntFacts.
Import Int.
Local Open Scope Z_scope.

Lemma representableb_spec w z : representableb w z = true <-> representable w z.
Proof. unfold representableb, representable. rewrite andb_true_iff. lia. Qed.

Lemma modulus_halves w : 0 < w -> modulus w = 2 * 2 ^ (w - 1).
Proof.
  intros Hw. unfold modulus.
  replace w with (Z.succ (w - 1)) at 1 by lia.
  apply Z.pow_succ_r. lia.
Qed.

Lemma half_pos w : 0 < w -> 0 < 2 ^ (w - 1).
Proof. intros Hw. apply Z.pow_pos_nonneg; lia. Qed.

Lemma half_large w : 16 <= w -> 32768 <= 2 ^ (w - 1).
Proof.
  intros Hw. change 32768 with (2 ^ 15).
  apply Z.pow_le_mono_r; lia.
Qed.

Lemma wrap_representable w z : 0 < w -> representable w (wrap w z).
Proof.
  intros Hw. unfold representable, wrap, max_value.
  pose proof (modulus_halves w Hw) as Hm. pose proof (half_pos w Hw) as Hp.
  pose proof (Z.mod_pos_bound (z - min_value w) (modulus w)) as Hb.
  unfold min_value in *. lia.
Qed.

Lemma wrap_id w z : 0 < w -> representable w z -> wrap w z = z.
Proof.
  intros Hw [Hlo Hhi]. unfold wrap.
  pose proof (modulus_halves w Hw) as Hm.
  unfold min_value, max_value in *.
  rewrite Z.mod_small; lia.
Qed.

Lemma wrap_congruent w z : 0 < w -> wrap w z mod modulus w = z mod modulus w.
Proof.
  intros Hw. unfold wrap.
  pose proof (modulus_halves w Hw) as Hm. pose proof (half_pos w Hw) as Hp.
  rewrite Z.add_mod_idemp_l by lia. f_equal. lia.
Qed.

Lemma wrap_above w z :
  0 < w -> max_value w < z <= max_value w + modulus w -> wrap w z = z - modulus w.
Proof.
  intros Hw Hz. unfold wrap.
  pose proof (modulus_halves w Hw) as Hm. pose proof (half_pos w Hw) as Hp.
  unfold min_value, max_value in *.
  replace (z - - 2 ^ (w - 1)) with ((z - modulus w + 2 ^ (w - 1)) + 1 * modulus w) by lia.
  rewrite Z.mod_add by lia. rewrite Z.mod_small; lia.
Qed.

Lemma wrap_below w z :
  0 < w -> min_value w - modulus w <= z < min_value w -> wrap w z = z + modulus w.
Proof.
  intros Hw Hz. unfold wrap.
  pose proof (modulus_halves w Hw) as Hm. pose proof (half_pos w Hw) as Hp.
  unfold min_value, max_value in *.
  replace (z - - 2 ^ (w - 1)) with ((z + modulus w + 2 ^ (w - 1)) + (-1) * modulus w) by lia.
  rewrite Z.mod_add by lia. rewrite Z.mod_small; lia.
Qed.

Lemma add_1_below_max w c :
  0 < w -> representable w c -> c < max_value w -> add w c 1 = c + 1.
Proof. intros Hw [Hlo Hhi] Hc. apply wrap_id; [done|]. unfold representable. lia. Qed.

Lemma add_1_at_max w : 0 < w -> add w (max_value w) 1 = min_value w.
Proof.
  intros Hw. unfold add. rewrite wrap_above; [|done|].
  - rewrite (modulus_halves w Hw). unfold max_value, min_value. lia.
  - pose proof (modulus_halves w Hw). pose proof (half_pos w Hw). lia.
Qed.

Lemma sub_1_above_min w c :
  0 < w -> representable w c -> min_value w < c -> sub w c 1 = c - 1.
Proof. intros Hw [Hlo Hhi] Hc. apply wrap_id; [done|]. unfold representable. lia. Qed.

Lemma sub_1_at_min w : 0 < w -> sub w (min_value w) 1 = max_value w.
Proof.
  intros Hw. unfold sub. rewrite wrap_below; [|done|].
  - rewrite (modulus_halves w Hw). unfold max_value, min_value. lia.
  - pose proof (modulus_halves w Hw). pose proof (half_pos w Hw). lia.
Qed.

Lemma sub_add_1 w c : 0 < w -> representable w c -> sub w (add w c 1) 1 = c.
Proof.
  intros Hw Hc. destruct (Z.eq_dec c (max_value w)) as [->|Hne].
  - rewrite add_1_at_max by done. apply sub_1_at_min. done.
  - destruct Hc as [Hlo Hhi].
    rewrite add_1_below_max; [|done|split; done|lia].
    unfold sub. replace (c + 1 - 1) with c by lia. apply wrap_id; [done|split; done].
Qed.

Lemma add_sub_1 w c : 0 < w -> representable w c -> add w (sub w c 1) 1 = c.
Proof.
  intros Hw Hc. destruct (Z.eq_dec c (min_value w)) as [->|Hne].
  - rewrite sub_1_at_min by done. apply add_1_at_max. done.
  - destruct Hc as [Hlo Hhi].
    rewrite sub_1_above_min; [|done|split; done|lia].
    unfold add. replace (c - 1 + 1) with c by lia. apply wrap_id; [done|split; done].
Qed.

End IntFacts.

(** ** One step of the state *)

(** Expose the state function behind the monadic operations. *)
Ltac unfold_M :=
  unfold counter_get, counter_set, set_handler, load, store, log, write_cout,
    mbind, M_bind, mret, M_ret.

Lemma counter_at_lookup (W : World) (a : addr) (c : Z) :
  counter_at W a = Some c <->
  exists o, objects W !! a = Some o /\ Property.value (counter o) = c.
Proof.
  unfold counter_at. destruct (objects W !! a) as [o|]; simpl.
  - split.
    + intros [= <-]. exists o. done.
    + intros (o' & [= <-] & <-). done.
  - split; [done|]. intros (o' & Ho & _). done.
Qed.

Lemma counter_at_insert (l : list Hello) (out : string) (tr : list Event)
    (a : addr) (o o' : Hello) :
  l !! a = Some o ->
  counter_at (make_World (<[a:=o']> l) out tr) a = Some (Property.value (counter o')).
Proof.
  intros Ho. unfold counter_at. simpl.
  rewrite list_lookup_insert_eq by (eapply lookup_lt_Some; eassumption).
  done.
Qed.

(** Read the counter, apply [f], write the result back: the shape of both
    counter handlers. *)
Lemma read_modify_write (f : Z -> Z) (a : addr) (W : World) (o : Hello) :
  objects W !! a = Some o ->
  (v ← counter_get a nullptr; counter_set a (f v)) W =
  let c := Property.value (counter o) in
  Some (tt, make_World
              (<[a:=with_counter o (Property.make (f c))]> (objects W))
              (cout W)
              (events W ++ [Counter_read a c; Counter_written a (f c)])).
Proof.
  intros Ho. unfold_M.
  simpl. repeat (rewrite Ho; simpl).
  rewrite <- app_assoc. done.
Qed.

Lemma call_counter_handler (w : Z) (h : Lambda) (f : Z -> Z) (a : addr)
    (W : World) (o : Hello) :
  (h = lambda_plus_clicked a /\ f = (fun v => Int.add w v 1)) \/
  (h = lambda_minus_clicked a /\ f = (fun v => Int.sub w v 1)) ->
  objects W !! a = Some o ->
  call w h W =
  let c := Property.value (counter o) in
  Some (tt, make_World
              (<[a:=with_counter o (Property.make (f c))]> (objects W))
              (cout W)
              (events W ++ [Called h; Counter_read a c; Counter_written a (f c)])).
Proof.
  intros Hh Ho.
  assert (call w h W =
            (v ← counter_get a nullptr; counter_set a (f v))
              (make_World (objects W) (cout W) (events W ++ [Called h]))) as ->.
  { destruct Hh as [[-> ->]|[-> ->]]; done. }
  rewrite (read_modify_write f a _ o) by done.
  simpl. rewrite <- app_assoc. done.
Qed.

Lemma string_app_assoc (s t u : string) : ((s ++ t) ++ u = s ++ t ++ u)%string.
Proof. induction s as [|x s IH]; simpl; [done|]. rewrite IH. done. Qed.

Lemma string_app_nil_r (s : string) : (s ++ "" = s)%string.
Proof. induction s as [|x s IH]; simpl; [done|]. rewrite IH. done. Qed.

Lemma lines_app (s t : string) : lines (s ++ t) = lines s + lines t.
Proof.
  induction s as [|c s IH]; simpl; [done|].
  rewrite IH. lia.
Qed.

Lemma call_two_counter_handlers (w : Z) (h1 h2 : Lambda) (f1 f2 : Z -> Z)
    (a : addr) (W : World) (o : Hello) :
  (h1 = lambda_plus_clicked a /\ f1 = (fun v => Int.add w v 1)) \/
  (h1 = lambda_minus_clicked a /\ f1 = (fun v => Int.sub w v 1)) ->
  (h2 = lambda_plus_clicked a /\ f2 = (fun v => Int.add w v 1)) \/
  (h2 = lambda_minus_clicked a /\ f2 = (fun v => Int.sub w v 1)) ->
  objects W !! a = Some o ->
  (call w h1;; call w h2) W =
  let c := Property.value (counter o) in
  Some (tt, make_World
              (<[a:=with_counter o (Property.make (f2 (f1 c)))]> (objects W))
              (cout W)
              (events W ++ [Called h1; Counter_read a c; Counter_written a (f1 c);
                            Called h2; Counter_read a (f1 c);
                            Counter_written a (f2 (f1 c))])).
Proof.
  intros H1 H2 Ho.
  change ((call w h1;; call w h2) W)
    with (match call w h1 W with Some (_, W') => call w h2 W' | None => None end).
  rewrite (call_counter_handler w h1 f1 a W o H1 Ho). cbv beta iota zeta.
  erewrite (call_counter_handler w h2 f2 a _ _ H2); cycle 1.
  { simpl. apply list_lookup_insert_eq. eapply lookup_lt_Some. eassumption. }
  simpl. rewrite list_insert_insert_eq, <- app_assoc. done.
Qed.

Lemma with_counter_same (o : Hello) (c : Z) :
  Property.value (counter o) = c -> with_counter o (Property.make c) = o.
Proof. destruct o as [[v] f p m]. simpl. intros ->. done. Qed.

(** What a counter handler leaves behind, in observable terms. *)
Lemma counter_handler_effect (w : Z) (h : Lambda) (f : Z -> Z) (a : addr)
    (W : World) (c : Z) :
  (h = lambda_plus_clicked a /\ f = (fun v => Int.add w v 1)) \/
  (h = lambda_minus_clicked a /\ f = (fun v => Int.sub w v 1)) ->
  counter_at W a = Some c ->
  exists W',
    call w h W = Some (tt, W') /\
    events W' = events W ++ [Called h; Counter_read a c; Counter_written a (f c)] /\
    counter_at W' a = Some (f c) /\
    cout W' = cout W.
Proof.
  intros Hh Hc. apply counter_at_lookup in Hc as (o & Ho & <-).
  eexists. split; [apply (call_counter_handler w h f a W o Hh Ho)|].
  cbv zeta. split; [done|]. split; [|done].
  apply (counter_at_insert _ _ _ a o). done.
Qed.

(** ** The handlers *)

(** C1, as amended.  For every representable counter value [c], one
    invocation of the plus_clicked handler reads the counter, adds 1 in the
    arithmetic of [int] and writes the sum back: the counter is then
    [c + 1] reduced modulo [2 ^ w], which is [c + 1] itself whenever [c] is
    below the largest [int]. *)
Theorem plus_clicked_once (w : Z) (a : addr) (W : World) (c : Z) :
  (0 < w)%Z -> counter_at W a = Some c -> Int.representable w c ->
  exists W',
    call w (lambda_plus_clicked a) W = Some (tt, W') /\
    events W' = events W ++ [Called (lambda_plus_clicked a); Counter_read a c;
                             Counter_written a (Int.add w c 1)] /\
    counter_at W' a = Some (Int.add w c 1) /\
    (Int.add w c 1 mod Int.modulus w = (c + 1) mod Int.modulus w)%Z /\
    ((c < Int.max_value w)%Z -> counter_at W' a = Some (c + 1)%Z).
Proof.
  intros Hw Hc Hrep.
  destruct (counter_handler_effect w (lambda_plus_clicked a)
              (fun v => Int.add w v 1) a W c) as (W' & Hcall & Hev & Hafter & _);
    [left; done|done|].
  exists W'. split; [done|]. split; [done|]. split; [done|]. split.
  - apply IntFacts.wrap_congruent. done.
  - intros Hlt. rewrite Hafter. f_equal. apply IntFacts.add_1_below_max; done.
Qed.

(** C2, as amended.  For every representable counter value [c], one
    invocation of the minus_clicked handler reads the counter, subtracts 1 in
    the arithmetic of [int] and writes the difference back: the counter is
    then [c - 1] reduced modulo [2 ^ w], which is [c - 1] itself whenever [c]
    is above the smallest [int]. *)
Theorem minus_clicked_once (w : Z) (a : addr) (W : World) (c : Z) :
  (0 < w)%Z -> counter_at W a = Some c -> Int.representable w c ->
  exists W',
    call w (lambda_minus_clicked a) W = Some (tt, W') /\
    events W' = events W ++ [Called (lambda_minus_clicked a); Counter_read a c;
                             Counter_written a (Int.sub w c 1)] /\
    counter_at W' a = Some (Int.sub w c 1) /\
    (Int.sub w c 1 mod Int.modulus w = (c - 1) mod Int.modulus w)%Z /\
    ((Int.min_value w < c)%Z -> counter_at W' a = Some (c - 1)%Z).
Proof.
  intros Hw Hc Hrep.
  destruct (counter_handler_effect w (lambda_minus_clicked a)
              (fun v => Int.sub w v 1) a W c) as (W' & Hcall & Hev & Hafter & _);
    [right; done|done|].
  exists W'. split; [done|]. split; [done|]. split; [done|]. split.
  - apply IntFacts.wrap_congruent. done.
  - intros Hlt. rewrite Hafter. f_equal. apply IntFacts.sub_1_above_min; done.
Qed.

(** C3.  From every representable counter value [c], plus_clicked followed
    by minus_clicked, and minus_clicked followed by plus_clicked, both end
    with the counter at [c] again (and with every object as it was). *)
Theorem plus_minus_restore (w : Z) (a : addr) (W : World) (c : Z) :
  (0 < w)%Z -> counter_at W a = Some c -> Int.representable w c ->
  (exists W',
     (call w (lambda_plus_clicked a);; call w (lambda_minus_clicked a)) W
       = Some (tt, W') /\
     counter_at W' a = Some c /\ objects W' = objects W) /\
  (exists W',
     (call w (lambda_minus_clicked a);; call w (lambda_plus_clicked a)) W
       = Some (tt, W') /\
     counter_at W' a = Some c /\ objects W' = objects W).
Proof.
  intros Hw Hc Hrep. pose proof Hc as Hc'.
  apply counter_at_lookup in Hc as (o & Ho & Hv).
  split; eexists; (split; [eapply call_two_counter_handlers; [..|exact Ho]|]).
  - left. split; reflexivity.
  - right. split; reflexivity.
  - cbv zeta. rewrite Hv, IntFacts.sub_add_1 by done.
    rewrite with_counter_same, list_insert_id by done.
    split; [|done]. unfold counter_at. simpl. exact Hc'.
  - right. split; reflexivity.
  - left. split; reflexivity.
  - cbv zeta. rewrite Hv, IntFacts.add_sub_1 by done.
    rewrite with_counter_same, list_insert_id by done.
    split; [|done]. unfold counter_at. simpl. exact Hc'.
Qed.

(** C4.  Every invocation of the foobar handler succeeds, appends exactly
    the text [Hello from C++] and one line end to the standard output, and
    leaves every object - the counter and the three slots of the component
    included - as it was; the only event is the call itself. *)
Theorem foobar_notifies_once (w : Z) (W : World) :
  exists W',
    call w lambda_foobar W = Some (tt, W') /\
    cout W' = (cout W ++ "Hello from C++" ++ endl)%string /\
    lines (cout W') = S (lines (cout W)) /\
    objects W' = objects W /\
    (forall a, counter_at W' a = counter_at W a) /\
    events W' = events W ++ [Called lambda_foobar].
Proof.
  eexists. split; [reflexivity|]. simpl.
  rewrite string_app_assoc. split; [done|]. split.
  - rewrite lines_app. simpl. lia.
  - done.
Qed.

(** C10.  The handlers compute in the fixed-width [int]: the new counter is
    always representable and congruent to [c + 1] (or [c - 1]) modulo
    [2 ^ w]; at the largest [int] the increment gives the smallest one, at
    the smallest the decrement gives the largest, and neither is the
    mathematical successor or predecessor. *)
Theorem counter_arithmetic_wraps (w : Z) (a : addr) (W : World) (c : Z) :
  (0 < w)%Z -> counter_at W a = Some c -> Int.representable w c ->
  exists Wp Wm cp cm,
    call w (lambda_plus_clicked a) W = Some (tt, Wp) /\
    counter_at Wp a = Some cp /\
    call w (lambda_minus_clicked a) W = Some (tt, Wm) /\
    counter_at Wm a = Some cm /\
    Int.representable w cp /\ Int.representable w cm /\
    (cp mod 2 ^ w = (c + 1) mod 2 ^ w)%Z /\
    (cm mod 2 ^ w = (c - 1) mod 2 ^ w)%Z /\
    (c = Int.max_value w ->
     cp = Int.min_value w /\ cp = (c + 1 - 2 ^ w)%Z /\ cp <> (c + 1)%Z) /\
    (c = Int.min_value w ->
     cm = Int.max_value w /\ cm = (c - 1 + 2 ^ w)%Z /\ cm <> (c - 1)%Z).
Proof.
  intros Hw Hc Hrep.
  destruct (counter_handler_effect w (lambda_plus_clicked a)
              (fun v => Int.add w v 1) a W c) as (Wp & Hp & _ & Hcp & _);
    [left; done|done|].
  destruct (counter_handler_effect w (lambda_minus_clicked a)
              (fun v => Int.sub w v 1) a W c) as (Wm & Hm' & _ & Hcm & _);
    [right; done|done|].
  exists Wp, Wm, (Int.add w c 1), (Int.sub w c 1).
  do 4 (split; [done|]).
  pose proof (IntFacts.modulus_halves w Hw) as Hm.
  pose proof (IntFacts.half_pos w Hw) as Hpos.
  unfold Int.modulus in Hm.
  assert (Int.representable w (Int.add w c 1)) as Hrp
    by (apply IntFacts.wrap_representable; done).
  assert (Int.representable w (Int.sub w c 1)) as Hrm
    by (apply IntFacts.wrap_representable; done).
  split; [exact Hrp|]. split; [exact Hrm|].
  split; [apply (IntFacts.wrap_congruent w (c + 1) Hw)|].
  split; [apply (IntFacts.wrap_congruent w (c - 1) Hw)|].
  split.
  - intros Hmax. rewrite Hmax, IntFacts.add_1_at_max by done.
    unfold Int.min_value, Int.max_value. split; [done|]. lia.
  - intros Hmin. rewrite Hmin, IntFacts.sub_1_at_min by done.
    unfold Int.min_value, Int.max_value. split; [done|]. lia.
Qed.

(** ** The event loop *)

Lemma emit_wired (w : Z) (s : SignalName) (c : Z) (out : string) (tr : list Event) :
  emit w 0 s (wired_world c out tr) =
  Some (tt, wired_world (counter_step w s c)
              (out ++ output_step s) (tr ++ events_step w 0 s c)).
Proof.
  destruct s; unfold wired_world; simpl.
  - unfold emit, call, foobar_handler, load, log, write_cout, mbind, M_bind, mret, M_ret.
    simpl. rewrite <- app_assoc, string_app_assoc. done.
  - unfold emit, mbind, M_bind, load, log. simpl.
    erewrite (call_counter_handler w _ (fun v => Int.add w v 1) 0);
      [|left; done|reflexivity].
    simpl. rewrite <- app_assoc, string_app_nil_r. done.
  - unfold emit, mbind, M_bind, load, log. simpl.
    erewrite (call_counter_handler w _ (fun v => Int.sub w v 1) 0);
      [|right; done|reflexivity].
    simpl. rewrite <- app_assoc, string_app_nil_r. done.
Qed.

Lemma deliver_wired (w : Z) (fired : list SignalName) (c : Z) (out : string)
    (tr : list Event) :
  deliver w 0 fired (wired_world c out tr) =
  Some (tt, wired_world (counter_after w fired c)
              (out ++ output_after fired) (tr ++ events_after w 0 fired c)).
Proof.
  revert c out tr. induction fired as [|s rest IH]; intros c out tr.
  - simpl. rewrite string_app_nil_r, app_nil_r. done.
  - change (deliver w 0 (s :: rest) (wired_world c out tr))
      with (match emit w 0 s (wired_world c out tr) with
            | Some (_, W') => deliver w 0 rest W'
            | None => None
            end).
    rewrite emit_wired, IH. simpl.
    rewrite string_app_assoc, <- app_assoc. done.
Qed.

Lemma wire_boot (c0 : Z) : wire c0 boot = Some (0, wired_world c0 "" wiring_events).
Proof. reflexivity. Qed.

Lemma run_wired (w : Z) (env : Session) (c : Z) (out : string) (tr : list Event) :
  run w env 0 (wired_world c out tr) =
  Some (loop_status env,
        wired_world (counter_after w (firings env) c)
          (out ++ output_after (firings env))
          (tr ++ [Run_entered 0] ++ events_after w 0 (firings env) c ++ [Run_left 0])).
Proof.
  unfold run.
  change ((log (Run_entered 0);; deliver w 0 (firings env);; log (Run_left 0);;
           mret (loop_status env)) (wired_world c out tr))
    with (match deliver w 0 (firings env) (wired_world c out (tr ++ [Run_entered 0])) with
          | Some (_, W') =>
              Some (loop_status env,
                    make_World (objects W') (cout W') (events W' ++ [Run_left 0]))
          | None => None
          end).
  rewrite deliver_wired. unfold wired_world. simpl.
  rewrite <- !app_assoc. done.
Qed.

(** [main] is its wiring, then [run], then [return 0]. *)
Lemma main_wire_run (w c0 : Z) (env : Session) (W : World) :
  main w c0 env W =
  match wire c0 W with
  | Some (component, W0) =>
      match run w env component W0 with
      | Some (_, W1) => Some (0%Z, W1)
      | None => None
      end
  | None => None
  end.
Proof.
  unfold main, wire, mbind, M_bind, mret, M_ret.
  repeat match goal with
         | |- context [match ?x with Some _ => _ | None => _ end] =>
             destruct x as [[? ?]|]; try done
         end.
Qed.

Lemma main_boot (w c0 : Z) (env : Session) :
  main w c0 env boot =
  Some (0%Z,
        wired_world (counter_after w (firings env) c0)
          (output_after (firings env))
          (wiring_events ++ [Run_entered 0] ++
           events_after w 0 (firings env) c0 ++ [Run_left 0])).
Proof. rewrite main_wire_run, wire_boot, run_wired. done. Qed.

Lemma events_after_in_loop (w : Z) (a : addr) (fired : list SignalName) (c : Z) :
  Forall in_loop (events_after w a fired c).
Proof.
  revert c. induction fired as [|s rest IH]; intros c; simpl; [constructor|].
  apply Forall_app. split; [|apply IH].
  destruct s; repeat constructor.
Qed.

Lemma events_after_targets (w : Z) (a : addr) (fired : list SignalName) (c : Z) :
  Forall (targets a) (events_after w a fired c).
Proof.
  revert c. induction fired as [|s rest IH]; intros c; simpl; [constructor|].
  apply Forall_app. split; [|apply IH].
  destruct s; repeat constructor.
Qed.

Lemma constructions_in_loop (tr : list Event) :
  Forall in_loop tr -> constructions tr = 0.
Proof.
  induction 1 as [|e tr He _ IH]; simpl; [done|].
  destruct e; simpl in He; done.
Qed.

Lemma constructions_app (tr1 tr2 : list Event) :
  constructions (tr1 ++ tr2) = constructions tr1 + constructions tr2.
Proof.
  induction tr1 as [|e tr1 IH]; simpl; [done|].
  destruct e; simpl; rewrite IH; done.
Qed.

Lemma small_representable (w z : Z) :
  (16 <= w)%Z -> (-32768 <= z <= 32767)%Z -> Int.representable w z.
Proof.
  intros Hw Hz. pose proof (IntFacts.half_large w Hw).
  unfold Int.representable, Int.min_value, Int.max_value. lia.
Qed.

Lemma small_add_1 (w z : Z) :
  (16 <= w)%Z -> (-32768 <= z < 32767)%Z -> Int.add w z 1 = (z + 1)%Z.
Proof.
  intros Hw Hz. apply IntFacts.wrap_id; [lia|].
  apply small_representable; [done|lia].
Qed.

Lemma small_sub_1 (w z : Z) :
  (16 <= w)%Z -> (-32768 < z <= 32767)%Z -> Int.sub w z 1 = (z - 1)%Z.
Proof.
  intros Hw Hz. apply IntFacts.wrap_id; [lia|].
  apply small_representable; [done|lia].
Qed.

(** ** The program *)

(** C5.  With the counter starting at 0 and the handlers attached as [main]
    attaches them, three firings of plus_clicked leave the counter at 3 and
    one more firing of minus_clicked leaves it at 2; so does the whole
    program on that sequence of firings. *)
Theorem scenario_three_plus_one_minus (w : Z) :
  (16 <= w)%Z ->
  exists W0 W3 W4,
    wire 0 boot = Some (0, W0) /\
    counter_at W0 0 = Some 0%Z /\
    deliver w 0 [Plus_clicked; Plus_clicked; Plus_clicked] W0 = Some (tt, W3) /\
    counter_at W3 0 = Some 3%Z /\
    deliver w 0 [Minus_clicked] W3 = Some (tt, W4) /\
    counter_at W4 0 = Some 2%Z /\
    forall status,
    exists W,
      main w 0 (make_Session
                  [Plus_clicked; Plus_clicked; Plus_clicked; Minus_clicked] status)
        boot = Some (0%Z, W) /\
      counter_at W 0 = Some 2%Z.
Proof.
  intros Hw.
  assert (counter_after w [Plus_clicked; Plus_clicked; Plus_clicked] 0 = 3%Z) as H3.
  { simpl.
    rewrite (small_add_1 w 0) by (try done; lia). change (0 + 1)%Z with 1%Z.
    rewrite (small_add_1 w 1) by (try done; lia). change (1 + 1)%Z with 2%Z.
    rewrite (small_add_1 w 2) by (try done; lia). done. }
  assert (counter_after w [Minus_clicked] 3 = 2%Z) as H2.
  { simpl. rewrite (small_sub_1 w 3) by (try done; lia). done. }
  eexists _, _, _.
  split; [apply wire_boot|]. split; [reflexivity|].
  split; [apply deliver_wired|]. rewrite H3.
  split; [reflexivity|].
  split; [apply deliver_wired|]. rewrite H2.
  split; [reflexivity|].
  intros status. eexists. split; [apply main_boot|].
  unfold counter_at, wired_world. simpl. f_equal.
  change (counter_after w [Minus_clicked]
            (counter_after w [Plus_clicked; Plus_clicked; Plus_clicked] 0) = 2%Z).
  rewrite H3. exact H2.
Qed.

(** C6, as amended.  For every session, [run] terminates and produces the
    status of the loop, and [main] then terminates with exit code 0: the
    value produced by [run] is dropped. *)
Theorem main_exit_code (w c0 : Z) (env : Session) :
  exists a W0 W1,
    wire c0 boot = Some (a, W0) /\
    run w env a W0 = Some (loop_status env, W1) /\
    main w c0 env boot = Some (0%Z, W1).
Proof.
  eexists 0, _, _.
  split; [apply wire_boot|].
  split; [apply run_wired|].
  rewrite main_boot. unfold wiring_events. done.
Qed.

(** C7.  In every execution of [main] the component is constructed first,
    then the handlers of foobar, plus_clicked and minus_clicked are attached,
    then the loop is entered, with all three slots filled; every handler
    invocation lies between the entry to the loop and its end; and the state
    in which [run] returns is the final state of [main]: the end of the loop
    is the last event. *)
Theorem main_order (w c0 : Z) (env : Session) :
  exists W0 W loop o,
    wire c0 boot = Some (0, W0) /\
    events W0 = [Constructed 0;
                 Handler_set 0 Foobar lambda_foobar;
                 Handler_set 0 Plus_clicked (lambda_plus_clicked 0);
                 Handler_set 0 Minus_clicked (lambda_minus_clicked 0)] /\
    objects W0 = [o] /\ wired 0 o /\
    run w env 0 W0 = Some (loop_status env, W) /\
    main w c0 env boot = Some (0%Z, W) /\
    events W = events W0 ++ [Run_entered 0] ++ loop ++ [Run_left 0] /\
    Forall in_loop loop.
Proof.
  eexists _, _, (events_after w 0 (firings env) c0), _.
  split; [apply wire_boot|].
  split; [reflexivity|].
  split; [reflexivity|].
  split; [repeat split|].
  split; [apply run_wired|].
  split; [rewrite main_boot; done|].
  split; [reflexivity|].
  apply events_after_in_loop.
Qed.

(** ** Single-slot signals *)

Lemma fired_origin {H : Type} (s : Signal.t H) (calls : list (Signal.call H)) (h : H) :
  In h (Signal.fired s calls) ->
  Signal.emit s = Some h \/ Exists (Signal.registers h) calls.
Proof.
  revert s. induction calls as [|c rest IH]; intros s Hin; simpl in Hin.
  - destruct Hin.
  - destruct c as [h'|].
    + apply IH in Hin as [Hnow|Hlater].
      * right. apply Exists_cons_hd. simpl in *. congruence.
      * right. apply Exists_cons_tl. done.
    + destruct (Signal.emit s) as [h'|] eqn:Hs.
      * destruct Hin as [->|Hin]; [left; done|].
        apply IH in Hin as [Hnow|Hlater]; [left; congruence|].
        right. apply Exists_cons_tl. done.
      * apply IH in Hin as [Hnow|Hlater]; [left; congruence|].
        right. apply Exists_cons_tl. done.
Qed.

Lemma with_signal_twice (s : SignalName) (o : Hello) (x y : Signal.t Lambda) :
  with_signal s (with_signal s o x) y = with_signal s o y.
Proof. destruct s; done. Qed.

Lemma signal_with_signal (s : SignalName) (o : Hello) (x : Signal.t Lambda) :
  signal s (with_signal s o x) = x.
Proof. destruct s; done. Qed.

Lemma set_handler_steps (a : addr) (s : SignalName) (h : Lambda) (W : World) (o : Hello) :
  objects W !! a = Some o ->
  set_handler a s h W =
  Some (tt, make_World (<[a:=with_signal s o (Signal.make (Some h))]> (objects W))
              (cout W) (events W ++ [Handler_set a s h])).
Proof.
  intros Ho. unfold_M.
  simpl. repeat (rewrite Ho; simpl). done.
Qed.

(** Single-slot semantics on a component in the store: two [set_handler]
    calls on one signal leave the second handler in its slot, and the next
    firing calls it. *)
Lemma set_handler_twice (w : Z) (a : addr) (s : SignalName) (h1 h2 : Lambda)
    (W : World) (o : Hello) :
  objects W !! a = Some o ->
  exists W',
    (set_handler a s h1;; set_handler a s h2) W = Some (tt, W') /\
    objects W' = <[a:=with_signal s o (Signal.make (Some h2))]> (objects W) /\
    emit w a s W' = (log (Emitted a s);; call w h2) W'.
Proof.
  intros Ho. eexists. split.
  { change ((set_handler a s h1;; set_handler a s h2) W)
      with (match set_handler a s h1 W with
            | Some (_, W1) => set_handler a s h2 W1
            | None => None
            end).
    rewrite (set_handler_steps a s h1 W o Ho).
    erewrite set_handler_steps; [reflexivity|].
    simpl. apply list_lookup_insert_eq. eapply lookup_lt_Some. eassumption. }
  simpl. rewrite list_insert_insert_eq, with_signal_twice. split; [done|].
  unfold emit, load, mbind, M_bind. simpl.
  rewrite list_lookup_insert_eq by (eapply lookup_lt_Some; eassumption).
  rewrite signal_with_signal. done.
Qed.

(** C8.  After [set_handler] is called on a signal that already has a
    handler [h1], the slot holds the new handler [h2] alone: a firing invokes
    [h2], and over any later calls on the signal that do not attach [h1]
    again, [h1] never fires. *)
Theorem set_handler_replaces {H : Type} (s : Signal.t H) (h1 h2 : H)
    (later : list (Signal.call H)) :
  h1 <> h2 ->
  Forall (fun c => ~ Signal.registers h1 c) later ->
  let s' := Signal.set_handler (Signal.set_handler s h1) h2 in
  Signal.emit (Signal.set_handler s h1) = Some h1 /\
  Signal.emit s' = Some h2 /\
  ~ In h1 (Signal.fired s' later).
Proof.
  intros Hne Hlater s'. split; [done|]. split; [done|].
  intros Hin. apply fired_origin in Hin as [Hnow|Hagain].
  - simpl in Hnow. congruence.
  - apply Exists_exists in Hagain as (c & Hc & Hreg).
    rewrite Forall_forall in Hlater. exact (Hlater c Hc Hreg).
Qed.

(** ** One component *)

(** C9, as amended.  In every execution of [main] exactly one component is
    constructed and the store holds exactly that one object, at whatever
    point of the loop; the handlers of plus_clicked and minus_clicked refer
    to that object, the handler of foobar refers to no object, and every
    read and write of a counter in the trace is an access to that object. *)
Theorem one_shared_component (w c0 : Z) (env : Session) :
  exists W o,
    main w c0 env boot = Some (0%Z, W) /\
    constructions (events W) = 1 /\
    objects W = [o] /\
    Signal.emit (foobar o) = Some lambda_foobar /\
    names lambda_foobar = None /\
    Signal.emit (plus_clicked o) = Some (lambda_plus_clicked 0) /\
    names (lambda_plus_clicked 0) = Some 0 /\
    Signal.emit (minus_clicked o) = Some (lambda_minus_clicked 0) /\
    names (lambda_minus_clicked 0) = Some 0 /\
    Forall (targets 0) (events W) /\
    forall so_far : list SignalName,
    exists Wm om,
      (component ← wire c0; deliver w component so_far) boot = Some (tt, Wm) /\
      objects Wm = [om] /\ wired 0 om /\
      constructions (events Wm) = 1 /\
      Forall (targets 0) (events Wm).
Proof.
  eexists _, _. split; [apply main_boot|].
  split.
  { simpl. rewrite constructions_app.
    rewrite (constructions_in_loop _ (events_after_in_loop w 0 (firings env) c0)).
    done. }
  do 7 (split; [reflexivity|]).
  split.
  { simpl. repeat (apply Forall_cons; split; [done|]).
    apply Forall_app. split; [apply events_after_targets|].
    repeat constructor. }
  intros so_far. eexists _, _.
  split.
  { change ((component ← wire c0; deliver w component so_far) boot)
      with (match wire c0 boot with
            | Some (component, W0) => deliver w component so_far W0
            | None => None
            end).
    rewrite wire_boot. apply deliver_wired. }
  split; [reflexivity|]. split; [repeat split|].
  split.
  { simpl. rewrite (constructions_in_loop _ (events_after_in_loop w 0 so_far c0)).
    done. }
  simpl. repeat (apply Forall_cons; split; [done|]).
  apply events_after_targets.
Qed.

(** ** Whole sessions *)

Lemma wrap_absorbs (w x y : Z) :
  (0 < w)%Z -> Int.wrap w (Int.wrap w x + y) = Int.wrap w (x + y).
Proof.
  intros Hw. unfold Int.wrap.
  pose proof (IntFacts.half_pos w Hw) as Hp.
  pose proof (IntFacts.modulus_halves w Hw) as Hm.
  f_equal.
  replace ((x - Int.min_value w) mod Int.modulus w + Int.min_value w + y
           - Int.min_value w)%Z
    with ((x - Int.min_value w) mod Int.modulus w + y)%Z by lia.
  rewrite Z.add_mod_idemp_l by lia. f_equal. lia.
Qed.

Lemma counter_after_closed (w : Z) (fired : list SignalName) (c : Z) :
  (0 < w)%Z -> Int.representable w c ->
  counter_after w fired c = Int.wrap w (c + net fired).
Proof.
  intros Hw. revert c. induction fired as [|s rest IH]; intros c Hc.
  - simpl. unfold net. simpl. rewrite Z.add_0_r, IntFacts.wrap_id; done.
  - destruct s; simpl.
    + rewrite IH by done. f_equal.
    + rewrite IH by (apply IntFacts.wrap_representable; done).
      unfold Int.add. rewrite wrap_absorbs by done. f_equal.
      unfold net. simpl times. lia.
    + rewrite IH by (apply IntFacts.wrap_representable; done).
      unfold Int.sub. rewrite wrap_absorbs by done. f_equal.
      unfold net. simpl times. lia.
Qed.

Lemma output_after_greetings (fired : list SignalName) :
  output_after fired = greetings (times Foobar fired).
Proof.
  induction fired as [|s rest IH]; [done|].
  destruct s; simpl; rewrite IH; done.
Qed.

Lemma lines_greetings (n : nat) : lines (greetings n) = n.
Proof. induction n as [|n IH]; [done|]. simpl. rewrite IH. done. Qed.

Lemma called_app (tr1 tr2 : list Event) :
  called (tr1 ++ tr2) = called tr1 ++ called tr2.
Proof.
  induction tr1 as [|e tr1 IH]; [done|].
  destruct e; simpl; rewrite IH; done.
Qed.

Lemma called_events_after (w : Z) (a : addr) (fired : list SignalName) (c : Z) :
  called (events_after w a fired c) = map (registered a) fired.
Proof.
  revert c. induction fired as [|s rest IH]; intros c; [done|].
  simpl. rewrite called_app, IH. destruct s; done.
Qed.



(** X1.  After a whole session the counter is the initial value plus the
    number of plus_clicked firings minus the number of minus_clicked
    firings, reduced into the range of [int]; it is exactly that sum whenever
    the sum is representable. *)
Theorem counter_after_session (w c0 : Z) (env : Session) :
  (0 < w)%Z -> Int.representable w c0 ->
  exists W,
    main w c0 env boot = Some (0%Z, W) /\
    counter_at W 0 = Some (Int.wrap w (c0 + net (firings env))) /\
    (Int.representable w (c0 + net (firings env)) ->
     counter_at W 0 = Some (c0 + net (firings env))%Z).
Proof.
  intros Hw Hc. eexists. split; [apply main_boot|].
  unfold counter_at, wired_world. simpl.
  rewrite counter_after_closed by done. split; [done|].
  intros Hsum. rewrite IntFacts.wrap_id by done. done.
Qed.

(** X2.  The final counter depends only on how often plus_clicked and
    minus_clicked fire: two sessions with the same two counts end with the
    same counter, whatever the order of the firings and however many foobar
    firings lie between them. *)
Theorem counter_ignores_order (w c0 : Z) (env env' : Session) :
  (0 < w)%Z -> Int.representable w c0 ->
  times Plus_clicked (firings env) = times Plus_clicked (firings env') ->
  times Minus_clicked (firings env) = times Minus_clicked (firings env') ->
  exists W W',
    main w c0 env boot = Some (0%Z, W) /\
    main w c0 env' boot = Some (0%Z, W') /\
    counter_at W 0 = counter_at W' 0.
Proof.
  intros Hw Hc Hplus Hminus. eexists _, _.
  split; [apply main_boot|]. split; [apply main_boot|].
  unfold counter_at, wired_world. simpl.
  rewrite !counter_after_closed by done.
  unfold net. rewrite Hplus, Hminus. done.
Qed.

(** X3.  The output of the program is one greeting line per foobar firing
    and nothing else: plus_clicked and minus_clicked print nothing. *)
Theorem output_is_greetings (w c0 : Z) (env : Session) :
  exists W,
    main w c0 env boot = Some (0%Z, W) /\
    cout W = greetings (times Foobar (firings env)) /\
    lines (cout W) = times Foobar (firings env).
Proof.
  eexists. split; [apply main_boot|]. simpl.
  rewrite output_after_greetings. split; [done|]. apply lines_greetings.
Qed.

(** X4.  Every firing in the loop calls exactly one handler, the lambda that
    [main] attached to the fired signal: the handlers called are, in order,
    those of the signals fired. *)
Theorem firings_dispatch (w c0 : Z) (env : Session) :
  exists W,
    main w c0 env boot = Some (0%Z, W) /\
    called (events W) = map (registered 0) (firings env) /\
    length (called (events W)) = length (firings env).
Proof.
  eexists. split; [apply main_boot|]. simpl.
  rewrite !called_app, called_events_after. simpl. rewrite app_nil_r.
  split; [done|]. apply length_map.
Qed.

(** X5.  A counter handler touches the counter of its component and nothing
    else: it prints nothing, the three slots of the component keep their
    handlers, and every other object of the store is as before. *)
Theorem counter_handler_frame (w : Z) (h : Lambda) (a : addr) (W : World) (o : Hello) :
  h = lambda_plus_clicked a \/ h = lambda_minus_clicked a ->
  objects W !! a = Some o ->
  exists W' o',
    call w h W = Some (tt, W') /\
    cout W' = cout W /\
    length (objects W') = length (objects W) /\
    objects W' !! a = Some o' /\
    foobar o' = foobar o /\
    plus_clicked o' = plus_clicked o /\
    minus_clicked o' = minus_clicked o /\
    forall b, b <> a -> objects W' !! b = objects W !! b.
Proof.
  intros Hh Ho.
  assert (exists f,
            (h = lambda_plus_clicked a /\ f = (fun v => Int.add w v 1)) \/
            (h = lambda_minus_clicked a /\ f = (fun v => Int.sub w v 1)))
    as [f Hf].
  { destruct Hh as [->| ->]; eexists; [left|right]; split; reflexivity. }
  eexists _, _. split; [apply (call_counter_handler w h f a W o Hf Ho)|].
  cbv zeta. simpl. split; [done|]. split; [apply length_insert|].
  split.
  { apply list_lookup_insert_eq. eapply lookup_lt_Some. eassumption. }
  do 3 (split; [done|]).
  intros b Hb. apply list_lookup_insert_ne. done.
Qed.


(** * Concrete instances *)

(** C1: at the largest 32-bit [int] the handler does not leave [c + 1]. *)
Lemma plus_clicked_at_largest_int :
  Int.representable 32 2147483647 /\
  counter_at (wired_world 2147483647 "" []) 0 = Some 2147483647%Z /\
  exists W',
    call 32 (lambda_plus_clicked 0) (wired_world 2147483647 "" []) = Some (tt, W') /\
    counter_at W' 0 = Some (-2147483648)%Z /\
    counter_at W' 0 <> Some (2147483647 + 1)%Z.
Proof.
  split; [apply IntFacts.representableb_spec; reflexivity|].
  split; [reflexivity|].
  eexists. split; [vm_compute; reflexivity|].
  split; [reflexivity|]. vm_compute. discriminate.
Qed.

(** C2: at the smallest 32-bit [int] the handler does not leave [c - 1]. *)
Lemma minus_clicked_at_smallest_int :
  Int.representable 32 (-2147483648) /\
  counter_at (wired_world (-2147483648) "" []) 0 = Some (-2147483648)%Z /\
  exists W',
    call 32 (lambda_minus_clicked 0) (wired_world (-2147483648) "" []) = Some (tt, W') /\
    counter_at W' 0 = Some 2147483647%Z /\
    counter_at W' 0 <> Some (-2147483648 - 1)%Z.
Proof.
  split; [apply IntFacts.representableb_spec; reflexivity|].
  split; [reflexivity|].
  eexists. split; [vm_compute; reflexivity|].
  split; [reflexivity|]. vm_compute. discriminate.
Qed.

(** C6: a loop that ends with status 1 still gives exit code 0. *)
Lemma exit_code_drops_loop_status :
  exists W0 W1,
    wire 0 boot = Some (0, W0) /\
    run 32 (make_Session [] 1) 0 W0 = Some (1%Z, W1) /\
    main 32 0 (make_Session [] 1) boot = Some (0%Z, W1) /\
    0%Z <> 1%Z.
Proof.
  eexists _, _.
  split; [reflexivity|]. split; [reflexivity|]. split; [reflexivity|]. discriminate.
Qed.

(** C9: the handler attached to foobar refers to no component. *)
Lemma foobar_handler_names_no_component :
  exists W o,
    main 32 0 (make_Session [] 0) boot = Some (0%Z, W) /\
    objects W = [o] /\
    Signal.emit (foobar o) = Some lambda_foobar /\
    ~ (forall s h, Signal.emit (signal s o) = Some h -> names h = Some 0).
Proof.
  eexists _, _.
  split; [reflexivity|]. split; [reflexivity|]. split; [reflexivity|].
  intros Hall. specialize (Hall Foobar lambda_foobar eq_refl). discriminate.
Qed.

Lemma plus_clicked_once_witness :
  exists W',
    call 32 (lambda_plus_clicked 0) (wired_world 41 "" []) = Some (tt, W') /\
    counter_at W' 0 = Some 42%Z.
Proof.
  destruct (plus_clicked_once 32 0 (wired_world 41 "" []) 41)
    as (W' & Hcall & _ & _ & _ & Hbelow).
  - lia.
  - reflexivity.
  - apply IntFacts.representableb_spec. reflexivity.
  - exists W'. split; [exact Hcall|]. apply Hbelow. reflexivity.
Defined.

Lemma minus_clicked_once_witness :
  exists W',
    call 32 (lambda_minus_clicked 0) (wired_world 41 "" []) = Some (tt, W') /\
    counter_at W' 0 = Some 40%Z.
Proof.
  destruct (minus_clicked_once 32 0 (wired_world 41 "" []) 41)
    as (W' & Hcall & _ & _ & _ & Habove).
  - lia.
  - reflexivity.
  - apply IntFacts.representableb_spec. reflexivity.
  - exists W'. split; [exact Hcall|]. apply Habove. reflexivity.
Defined.

Lemma plus_minus_restore_witness :
  (exists W',
     (call 32 (lambda_plus_clicked 0);; call 32 (lambda_minus_clicked 0))
       (wired_world 2147483647 "" []) = Some (tt, W') /\
     counter_at W' 0 = Some 2147483647%Z /\
     objects W' = objects (wired_world 2147483647 "" [])) /\
  (exists W',
     (call 32 (lambda_minus_clicked 0);; call 32 (lambda_plus_clicked 0))
       (wired_world 2147483647 "" []) = Some (tt, W') /\
     counter_at W' 0 = Some 2147483647%Z /\
     objects W' = objects (wired_world 2147483647 "" [])).
Proof.
  apply (plus_minus_restore 32 0 (wired_world 2147483647 "" []) 2147483647).
  - lia.
  - reflexivity.
  - apply IntFacts.representableb_spec. reflexivity.
Defined.

Lemma scenario_three_plus_one_minus_witness :
  exists W,
    main 32 0 (make_Session
                 [Plus_clicked; Plus_clicked; Plus_clicked; Minus_clicked] 0)
      boot = Some (0%Z, W) /\
    counter_at W 0 = Some 2%Z.
Proof.
  destruct (scenario_three_plus_one_minus 32) as (W0 & W3 & W4 & H); [lia|].
  apply H.
Defined.

Lemma set_handler_replaces_witness :
  Signal.emit (Signal.set_handler (Signal.set_handler Signal.empty lambda_foobar)
                 (lambda_plus_clicked 0)) = Some (lambda_plus_clicked 0) /\
  ~ In lambda_foobar
      (Signal.fired
         (Signal.set_handler (Signal.set_handler Signal.empty lambda_foobar)
            (lambda_plus_clicked 0))
         [Signal.Emit; Signal.Set_handler (lambda_minus_clicked 0); Signal.Emit]).
Proof.
  destruct (set_handler_replaces Signal.empty lambda_foobar (lambda_plus_clicked 0)
              [Signal.Emit; Signal.Set_handler (lambda_minus_clicked 0); Signal.Emit])
    as (_ & Hnew & Hold).
  - discriminate.
  - repeat (apply Forall_cons; split); simpl; try (intros Hreg; done).
    apply Forall_nil. done.
  - split; [exact Hnew|exact Hold].
Defined.

Lemma counter_arithmetic_wraps_witness :
  exists Wp,
    call 32 (lambda_plus_clicked 0) (wired_world 2147483647 "" []) = Some (tt, Wp) /\
    counter_at Wp 0 = Some (Int.min_value 32).
Proof.
  destruct (counter_arithmetic_wraps 32 0 (wired_world 2147483647 "" []) 2147483647)
    as (Wp & Wm & cp & cm & Hp & Hcp & _ & _ & _ & _ & _ & _ & Hmax & _).
  - lia.
  - reflexivity.
  - apply IntFacts.representableb_spec. reflexivity.
  - exists Wp. split; [exact Hp|].
    destruct (Hmax eq_refl) as [-> _]. exact Hcp.
Defined.

Lemma counter_after_session_witness :
  exists W,
    main 32 5 (make_Session [Plus_clicked; Foobar; Minus_clicked; Minus_clicked] 0)
      boot = Some (0%Z, W) /\
    counter_at W 0 = Some 4%Z.
Proof.
  destruct (counter_after_session 32 5
              (make_Session [Plus_clicked; Foobar; Minus_clicked; Minus_clicked] 0))
    as (W & Hmain & _ & Hexact).
  - lia.
  - apply IntFacts.representableb_spec. reflexivity.
  - exists W. split; [exact Hmain|]. apply Hexact.
    apply IntFacts.representableb_spec. reflexivity.
Defined.

Lemma counter_ignores_order_witness :
  exists W W',
    main 32 2147483647 (make_Session [Plus_clicked; Minus_clicked; Foobar] 0) boot
      = Some (0%Z, W) /\
    main 32 2147483647 (make_Session [Minus_clicked; Plus_clicked] 3) boot
      = Some (0%Z, W') /\
    counter_at W 0 = counter_at W' 0.
Proof.
  apply (counter_ignores_order 32 2147483647
           (make_Session [Plus_clicked; Minus_clicked; Foobar] 0)
           (make_Session [Minus_clicked; Plus_clicked] 3)).
  - lia.
  - apply IntFacts.representableb_spec. reflexivity.
  - reflexivity.
  - reflexivity.
Defined.

Lemma counter_handler_frame_witness :
  exists W' o',
    call 32 (lambda_minus_clicked 0) (wired_world 7 "" []) = Some (tt, W') /\
    cout W' = EmptyString /\
    objects W' !! 0 = Some o' /\
    plus_clicked o' = Signal.make (Some (lambda_plus_clicked 0)).
Proof.
  destruct (counter_handler_frame 32 (lambda_minus_clicked 0) 0 (wired_world 7 "" [])
              (make_Hello (Property.make 7)
                 (Signal.make (Some lambda_foobar))
                 (Signal.make (Some (lambda_plus_clicked 0)))
                 (Signal.make (Some (lambda_minus_clicked 0)))))
    as (W' & o' & Hcall & Hout & _ & Ho' & _ & Hplus & _).
  - right. reflexivity.
  - reflexivity.
  - exists W', o'. split; [exact Hcall|]. split; [exact Hout|].
    split; [exact Ho'|exact Hplus].
Defined.
